(** * VMime: the simple authenticator and the MIME core

    Part I embeds [src/net/simpleAuthenticator.cpp]: a C++ class holding a
    username and a password, with two constructors, two getters, two
    setters and [requestAuthInfos].  Methods are actions of a small state
    monad over the object's fields, so that what a call returns and what
    it leaves behind in the object are both visible in the statements.

    Part II models the MIME core the documentation chapter "Parsing and
    Building Messages" calls: object model, parser and [messageBuilder].

    Part III holds the theorems. *)

From Stdlib Require Import String Ascii List Bool Arith Lia.
Import ListNotations.

Local Open Scope string_scope.
Set Warnings "-register-all".

(* ================================================================== *)
(** * Part I: [vmime::net::simpleAuthenticator]                          *)
(* ================================================================== *)

Module Net.

(** The object's data members. *)
Record simpleAuthenticator : Type := mk_simpleAuthenticator {
  m_username : string;
  m_password : string
}.

(** A method call on [this]: it returns a value and the object afterwards. *)
Definition Method (A : Type) : Type :=
  simpleAuthenticator -> A * simpleAuthenticator.

Definition ret {A : Type} (a : A) : Method A := fun this => (a, this).

Definition bind {A B : Type} (m : Method A) (k : A -> Method B) : Method B :=
  fun this => let (a, this') := m this in k a this'.

Definition get : Method simpleAuthenticator := fun this => (this, this).

Definition put (this' : simpleAuthenticator) : Method unit :=
  fun _ => (tt, this').

Declare Scope method_scope.
Delimit Scope method_scope with method.
Notation "x <- m ;; k" := (bind m (fun x => k))
  (at level 61, m at next level, right associativity) : method_scope.
Notation "m ;; k" := (bind m (fun _ => k))
  (at level 61, right associativity) : method_scope.
Local Open Scope method_scope.

(** The value a call returns, and the object it leaves. *)
Definition result_of {A : Type} (m : Method A) (this : simpleAuthenticator) : A :=
  fst (m this).

Definition object_after {A : Type} (m : Method A) (this : simpleAuthenticator)
  : simpleAuthenticator :=
  snd (m this).

(** [simpleAuthenticator::simpleAuthenticator()]: both members are
    default-constructed [std::string]s, that is, empty. *)
Definition simpleAuthenticator_new : simpleAuthenticator :=
  {| m_username := EmptyString; m_password := EmptyString |}.

(** [simpleAuthenticator::simpleAuthenticator(username, password)]. *)
Definition simpleAuthenticator_new2 (username password : string)
  : simpleAuthenticator :=
  {| m_username := username; m_password := password |}.

(** [getUsername() const]. *)
Definition getUsername : Method string :=
  this <- get ;; ret (m_username this).

(** [setUsername(username)]: assigns [m_username] only. *)
Definition setUsername (username : string) : Method unit :=
  this <- get ;;
  put {| m_username := username; m_password := m_password this |}.

(** [getPassword() const]. *)
Definition getPassword : Method string :=
  this <- get ;; ret (m_password this).

(** [setPassword(password)]: assigns [m_password] only. *)
Definition setPassword (password : string) : Method unit :=
  this <- get ;;
  put {| m_username := m_username this; m_password := password |}.

Section AuthenticationInfos.

(** The class [authenticationInfos] is declared in a header that is not
    among the files at hand; [requestAuthInfos] only calls its
    constructor [authenticationInfos(username, password)].  Both are
    parameters here. *)
Variable authenticationInfos : Type.
Variable authenticationInfos_new : string -> string -> authenticationInfos.

(** [requestAuthInfos() const]. *)
Definition requestAuthInfos : Method authenticationInfos :=
  this <- get ;;
  ret (authenticationInfos_new (m_username this) (m_password this)).

End AuthenticationInfos.

End Net.

(** ** Sequences of calls on one authenticator *)

Module NetCalls.

Import Net.
Local Open Scope method_scope.

(** One call of a public method of [simpleAuthenticator], with its
    argument. *)
Inductive call : Type :=
| CallRequestAuthInfos
| CallGetUsername
| CallSetUsername (username : string)
| CallGetPassword
| CallSetPassword (password : string).

(** The methods declared [const] in the source. *)
Definition is_const (c : call) : bool :=
  match c with
  | CallRequestAuthInfos | CallGetUsername | CallGetPassword => true
  | CallSetUsername _ | CallSetPassword _ => false
  end.

Definition is_setter (c : call) : bool := negb (is_const c).

Section Calls.

Variable authenticationInfos : Type.
Variable authenticationInfos_new : string -> string -> authenticationInfos.

(** The call carried out, its result dropped. *)
Definition perform (c : call) : Method unit :=
  match c with
  | CallRequestAuthInfos =>
      _ <- requestAuthInfos authenticationInfos authenticationInfos_new ;; ret tt
  | CallGetUsername => _ <- getUsername ;; ret tt
  | CallSetUsername username => setUsername username
  | CallGetPassword => _ <- getPassword ;; ret tt
  | CallSetPassword password => setPassword password
  end.

(** The calls carried out one after the other on the same object. *)
Fixpoint perform_all (cs : list call) : Method unit :=
  match cs with
  | [] => ret tt
  | c :: r => perform c ;; perform_all r
  end.

End Calls.

(** The argument of the last [setUsername] among [cs]; [initial] when
    there is none. *)
Fixpoint last_username (cs : list call) (initial : string) : string :=
  match cs with
  | [] => initial
  | CallSetUsername username :: r => last_username r username
  | _ :: r => last_username r initial
  end.

(** The argument of the last [setPassword] among [cs]; [initial] when
    there is none. *)
Fixpoint last_password (cs : list call) (initial : string) : string :=
  match cs with
  | [] => initial
  | CallSetPassword password :: r => last_password r password
  | _ :: r => last_password r initial
  end.

End NetCalls.

(* ================================================================== *)
(** * Part II: the MIME core (object model, parser, builder)            *)
(* ================================================================== *)

(** The message parser, the generator and the [messageBuilder] are not
    among the repository files at hand: the documentation chapter
    "Parsing and Building Messages" only calls them.  The definitions of
    this part are therefore written from the specification's sections 3
    (data model), 4.4 (parser), 4.7 (builder) and 7 (error taxonomy), each
    under a comment that says so. *)

Module Mime.

(** Octet sequences. *)
Definition octets : Type := string.

Definition CR : ascii := ascii_of_nat 13.
Definition LF : ascii := ascii_of_nat 10.
Definition SP : ascii := ascii_of_nat 32.
Definition HT : ascii := ascii_of_nat 9.
Definition CRLF : octets := String CR (String LF EmptyString).

Definition is_wsp (c : ascii) : bool := Ascii.eqb c SP || Ascii.eqb c HT.

(** ASCII lower-casing, for the case-insensitive comparisons of field
    names, media type tokens and parameter names. *)
Definition to_lower (c : ascii) : ascii :=
  let n := nat_of_ascii c in
  if ((65 <=? n)%nat && (n <=? 90)%nat)%bool then ascii_of_nat (n + 32) else c.

Fixpoint lowercase (s : string) : string :=
  match s with
  | EmptyString => EmptyString
  | String c r => String (to_lower c) (lowercase r)
  end.

Definition ieq (a b : string) : bool := String.eqb (lowercase a) (lowercase b).

Fixpoint ltrim (s : string) : string :=
  match s with
  | EmptyString => EmptyString
  | String c r => if is_wsp c then ltrim r else s
  end.

(** Drops trailing whitespace (and a trailing CR) of a line. *)
Fixpoint rtrim (s : string) : string :=
  match s with
  | EmptyString => EmptyString
  | String c r =>
      match rtrim r with
      | EmptyString => if is_wsp c || Ascii.eqb c CR then EmptyString
                       else String c EmptyString
      | r' => String c r'
      end
  end.

Definition trim (s : string) : string := rtrim (ltrim s).

(** ** Data model (specification, section 3) *)

(** Modelled from the spec: the typed field values of section 3; the
    classes behind them (mailbox, address list, date-time, text, media
    type, disposition, message-id, encoding) are not in the files at hand. *)
Record Mailbox : Type := mkMailbox {
  mb_name : string;        (* display name, decoded *)
  mb_email : string        (* addr-spec *)
}.

Inductive Address : Type :=
| AMailbox (m : Mailbox)
| AGroup (phrase : string) (members : list Mailbox).

Record DateTime : Type := mkDateTime {
  dt_year : nat; dt_month : nat; dt_day : nat;
  dt_hour : nat; dt_minute : nat; dt_second : nat;
  dt_zone_minutes : nat; dt_zone_west : bool   (* UTC offset in minutes *)
}.

(** A word of a [Text]: charset and bytes. *)
Definition Word : Type := (string * string)%type.

Record MediaType : Type := mkMediaType {
  mt_type : string;
  mt_subtype : string;
  mt_params : list (string * string)   (* ordered; keys compare case-insensitively *)
}.

Inductive FieldValue : Type :=
| VMailbox (m : Mailbox)
| VAddressList (l : list Address)
| VDateTime (d : DateTime)
| VText (ws : list Word)
| VMediaType (m : MediaType)
| VContentDisposition (token : string) (params : list (string * string))
| VMessageId (id : string)
| VEncoding (token : string)
| VRaw (o : octets).

Record Field : Type := mkField {
  f_name : string;
  f_value : FieldValue
}.

Definition Header : Type := list Field.

(** Modelled from the spec: ContentHandler, "an abstraction over an octet
    sequence plus its declared transfer encoding". *)
Record ContentHandler : Type := mkContentHandler {
  ch_data : octets;
  ch_encoding : string
}.

(** Modelled from the spec: a Part owns one Header and one Body; a Body is
    a leaf, a multipart (preamble, ordered children, epilogue; its boundary
    is the [boundary] parameter of the part's Content-Type), or, for
    [message/rfc822], one encapsulated Part. *)
Inductive Part : Type :=
| mkPart (header : Header) (body : Body)
with Body : Type :=
| Leaf (contents : ContentHandler)
| Multipart (preamble : octets) (children : list Part) (epilogue : octets)
| Encapsulated (message : Part).

Definition part_header (p : Part) : Header := let (h, _) := p in h.
Definition part_body (p : Part) : Body := let (_, b) := p in b.

Definition is_multipart (b : Body) : bool :=
  match b with Multipart _ _ _ => true | _ => false end.

Definition body_children (b : Body) : list Part :=
  match b with
  | Multipart _ cs _ => cs
  | Encapsulated m => [m]
  | Leaf _ => []
  end.

(** Lookup by name: the first occurrence, names compared case-insensitively. *)
Fixpoint findField (name : string) (h : Header) : option Field :=
  match h with
  | [] => None
  | f :: r => if ieq (f_name f) name then Some f else findField name r
  end.

Fixpoint get_param (name : string) (ps : list (string * string)) : option string :=
  match ps with
  | [] => None
  | (k, v) :: r => if ieq k name then Some v else get_param name r
  end.

(** ** Typed access to the media type (specification, sections 3 and 4.3) *)

Definition DQUOTE : ascii := ascii_of_nat 34.
Definition BACKSLASH : ascii := ascii_of_nat 92.

(** Splits at the first occurrence of [d]. *)
Fixpoint split_at (d : ascii) (s : octets) : option (octets * octets) :=
  match s with
  | EmptyString => None
  | String c r =>
      if Ascii.eqb c d then Some (EmptyString, r)
      else match split_at d r with
           | Some (a, b) => Some (String c a, b)
           | None => None
           end
  end.

(** Splits at every [;] that stands outside a quoted-string. *)
Fixpoint split_semis (in_quote escaped : bool) (s : octets) : list octets :=
  match s with
  | EmptyString => [EmptyString]
  | String c r =>
      if negb in_quote && Ascii.eqb c ";" then
        EmptyString :: split_semis false false r
      else
        let in_quote' :=
          if Ascii.eqb c DQUOTE && negb escaped then negb in_quote else in_quote in
        let escaped' := in_quote && negb escaped && Ascii.eqb c BACKSLASH in
        match split_semis in_quote' escaped' r with
        | l :: ls => String c l :: ls
        | [] => [String c EmptyString]
        end
  end.

(** The content of a quoted-string after its opening quote: up to the
    closing quote, a backslash quoting the octet after it. *)
Fixpoint unquote_from (escaped : bool) (s : octets) : octets :=
  match s with
  | EmptyString => EmptyString
  | String c r =>
      if escaped then String c (unquote_from false r)
      else if Ascii.eqb c BACKSLASH then unquote_from true r
      else if Ascii.eqb c DQUOTE then EmptyString
      else String c (unquote_from false r)
  end.

(** A parameter value: a token as it stands, or the content of a quoted-string. *)
Definition param_value (v : octets) : octets :=
  match trim v with
  | String c r => if Ascii.eqb c DQUOTE then unquote_from false r else String c r
  | EmptyString => EmptyString
  end.

Fixpoint parse_params (segs : list octets) : list (string * string) :=
  match segs with
  | [] => []
  | seg :: r =>
      match split_at "=" seg with
      | Some (n, v) => (lowercase (trim n), param_value v) :: parse_params r
      | None => parse_params r
      end
  end.

(** Modelled from the spec: the typed parser of a MediaType value,
    [type/subtype] followed by [; name=value] parameters whose value is a
    token or a quoted-string (section 4.3); type, subtype and parameter
    names are lower-cased (section 3).  It fails when the value has no
    [type/subtype].  The reassembly of RFC 2231 continuations is left to
    the field registry's own parser: the parser below takes the typed
    parser as a parameter, and this one is the instance used in examples. *)
Definition parse_media_type (v : octets) : option MediaType :=
  match split_semis false false v with
  | [] => None
  | first :: params =>
      match split_at "/" first with
      | Some (t, st) =>
          match trim t, trim st with
          | String c1 r1, String c2 r2 =>
              Some (mkMediaType (lowercase (String c1 r1)) (lowercase (String c2 r2))
                                (parse_params params))
          | _, _ => None
          end
      | None => None
      end
  end.

(** The default of section 3: [text/plain; charset=us-ascii]. *)
Definition default_media_type : MediaType :=
  mkMediaType "text" "plain" [("charset", "us-ascii")].

Definition boundary_of (m : MediaType) : option string :=
  match get_param "boundary" (mt_params m) with
  | Some (String c r) => Some (String c r)
  | _ => None
  end.

Definition is_multipart_type (m : MediaType) : bool := ieq (mt_type m) "multipart".

Definition is_message_rfc822 (m : MediaType) : bool :=
  ieq (mt_type m) "message" && ieq (mt_subtype m) "rfc822".

(** ** The parser (specification, section 4.4) *)

(** Modelled from the spec: "find header/body split at the first empty
    line (CRLF CRLF or LF LF; the parser accepts bare LF as line
    terminator)".  [at_line_start] says that the octet read next begins a
    line.  The result is the header octets (line terminators included)
    and the body octets; the terminator of the empty line is in neither. *)
Fixpoint split_header_body_from (at_line_start : bool) (s : octets)
  : octets * octets :=
  match s with
  | EmptyString => (EmptyString, EmptyString)
  | String c r =>
      if at_line_start && Ascii.eqb c LF then (EmptyString, r)
      else if at_line_start && Ascii.eqb c CR then
        match r with
        | String c2 r2 =>
            if Ascii.eqb c2 LF then (EmptyString, r2)
            else let (h, b) := split_header_body_from false r in (String c h, b)
        | EmptyString => (String c EmptyString, EmptyString)
        end
      else
        let (h, b) := split_header_body_from (Ascii.eqb c LF) r in (String c h, b)
  end.

Definition split_header_body (input : octets) : octets * octets :=
  split_header_body_from true input.

(** An empty line (LF or CRLF at a line start) occurs in [s]. *)
Fixpoint has_empty_line_from (at_line_start : bool) (s : octets) : bool :=
  match s with
  | EmptyString => false
  | String c r =>
      if at_line_start && Ascii.eqb c LF then true
      else if at_line_start && Ascii.eqb c CR
              && match r with
                 | String c2 _ => Ascii.eqb c2 LF
                 | EmptyString => false
                 end
      then true
      else has_empty_line_from (Ascii.eqb c LF) r
  end.

Definition has_empty_line (s : octets) : bool := has_empty_line_from true s.

(** The lines of an octet sequence, split at LF, the LF removed. *)
Fixpoint lines (s : octets) : list octets :=
  match s with
  | EmptyString => []
  | String c r =>
      if Ascii.eqb c LF then EmptyString :: lines r
      else match lines r with
           | [] => [String c EmptyString]
           | l :: ls => String c l :: ls
           end
  end.

(** Removes the CR of a CRLF terminator. *)
Fixpoint strip_cr (l : octets) : octets :=
  match l with
  | EmptyString => EmptyString
  | String c EmptyString => if Ascii.eqb c CR then EmptyString else l
  | String c r => String c (strip_cr r)
  end.

Definition starts_with_wsp (l : octets) : bool :=
  match l with
  | String c _ => is_wsp c
  | EmptyString => false
  end.

(** What a continuation line adds to the line before it: one whitespace
    octet (its first) and the text after its leading whitespace. *)
Definition continuation (l : octets) : octets :=
  match l with
  | String c r => String c (ltrim r)
  | EmptyString => EmptyString
  end.

(** Modelled from the spec: "Unfolding joins continuation lines (lines
    whose first octet is space or tab) onto the prior line, preserving one
    whitespace octet."  [cur] is the logical line being read. *)
Fixpoint unfold_from (cur : octets) (ls : list octets) : list octets :=
  match ls with
  | [] => [cur]
  | l :: r =>
      if starts_with_wsp l then unfold_from (cur ++ continuation l) r
      else cur :: unfold_from l r
  end.

Definition unfold (ls : list octets) : list octets :=
  match ls with
  | [] => []
  | l :: r => unfold_from l r
  end.

(** The field name of a logical line and what follows its colon; nothing
    when whitespace or the end of the line comes before a colon. *)
Fixpoint split_name (l : octets) : option (string * octets) :=
  match l with
  | EmptyString => None
  | String c r =>
      if Ascii.eqb c ":" then Some (EmptyString, r)
      else if is_wsp c then None
      else match split_name r with
           | Some (n, v) => Some (String c n, v)
           | None => None
           end
  end.

(** Modelled from the spec: a field is [name ":" value]; its value is kept
    as octets and handed to the typed parser on access.  A line with no
    name before a colon is a MalformedHeader and is dropped. *)
Definition parse_field (l : octets) : option Field :=
  match split_name l with
  | Some (String c n, v) => Some (mkField (String c n) (VRaw (trim v)))
  | _ => None
  end.

Fixpoint parse_fields (ls : list octets) : Header :=
  match ls with
  | [] => []
  | l :: r =>
      match parse_field l with
      | Some f => f :: parse_fields r
      | None => parse_fields r
      end
  end.

Definition parse_header (h : octets) : Header :=
  parse_fields (unfold (map strip_cr (lines h))).

(** The lines of a body with their terminators: their concatenation is the body. *)
Fixpoint raw_lines (s : octets) : list octets :=
  match s with
  | EmptyString => []
  | String c r =>
      if Ascii.eqb c LF then String c EmptyString :: raw_lines r
      else match raw_lines r with
           | [] => [String c EmptyString]
           | l :: ls => String c l :: ls
           end
  end.

Fixpoint concat_octets (ls : list octets) : octets :=
  match ls with
  | [] => EmptyString
  | l :: r => l ++ concat_octets r
  end.

Inductive LineKind : Type := Delimiter | CloseDelimiter | Ordinary.

(** A line that starts with [--B] is a delimiter line; with [--B--], the
    closing one. *)
Definition classify (B : string) (l : octets) : LineKind :=
  if prefix ("--" ++ B ++ "--") l then CloseDelimiter
  else if prefix ("--" ++ B) l then Delimiter
  else Ordinary.

(** The children after an opening delimiter line: [cur] is the child
    being read.  Without a closing delimiter (BoundaryUnterminated) the
    children found are kept and the epilogue is empty. *)
Fixpoint split_children (B : string) (cur : octets) (ls : list octets)
  : list octets * octets :=
  match ls with
  | [] => ([cur], EmptyString)
  | l :: r =>
      match classify B l with
      | CloseDelimiter => ([cur], concat_octets r)
      | Delimiter =>
          let (cs, e) := split_children B EmptyString r in (cur :: cs, e)
      | Ordinary => split_children B (cur ++ l) r
      end
  end.

(** Modelled from the spec: "The preamble is the octets up to the first
    occurrence of [--B] at line start.  Each subsequent [--B] line opens a
    child part, whose octets run until the next [--B] or the closing
    [--B--].  Octets after the closing delimiter form the epilogue." *)
Fixpoint split_multipart_lines (B : string) (ls : list octets)
  : octets * list octets * octets :=
  match ls with
  | [] => (EmptyString, [], EmptyString)
  | l :: r =>
      match classify B l with
      | CloseDelimiter => (EmptyString, [], concat_octets r)
      | Delimiter =>
          let (cs, e) := split_children B EmptyString r in (EmptyString, cs, e)
      | Ordinary =>
          let '(p, cs, e) := split_multipart_lines B r in (l ++ p, cs, e)
      end
  end.

Definition split_multipart (B : string) (body : octets)
  : octets * list octets * octets :=
  split_multipart_lines B (raw_lines body).

(** All results, or nothing when one is missing. *)
Fixpoint all_some {A : Type} (l : list (option A)) : option (list A) :=
  match l with
  | [] => Some []
  | Some a :: r =>
      match all_some r with
      | Some r' => Some (a :: r')
      | None => None
      end
  | None :: _ => None
  end.

Section Parser.

(** The typed parser the field registry holds for [Content-Type]. *)
Variable typed_media_type : octets -> option MediaType.

Definition as_media_type (v : FieldValue) : option MediaType :=
  match v with
  | VMediaType m => Some m
  | VRaw o => typed_media_type o
  | _ => None
  end.

(** Modelled from the spec: "Every Part has a well-defined effective media
    type: the value of its Content-Type header, defaulting to
    [text/plain; charset=us-ascii] when absent."  A Content-Type whose
    typed parse fails is a Raw field, and gives the default too. *)
Definition effective_media_type (h : Header) : MediaType :=
  match findField "Content-Type" h with
  | Some f =>
      match as_media_type (f_value f) with
      | Some m => m
      | None => default_media_type
      end
  | None => default_media_type
  end.

(** The declared Content-Transfer-Encoding, [7bit] when there is none. *)
Definition declared_encoding (h : Header) : string :=
  match findField "Content-Transfer-Encoding" h with
  | Some (mkField _ (VEncoding t)) => t
  | Some (mkField _ (VRaw o)) => lowercase (trim o)
  | _ => "7bit"
  end.

Definition leaf_of (h : Header) (body : octets) : Body :=
  Leaf (mkContentHandler body (declared_encoding h)).

(** Modelled from the spec: message parse and body parse of section 4.4,
    with the BoundaryMissing rule of section 7 ("multipart without
    boundary parameter; body degrades to a single opaque leaf carrying
    the original bytes").  [fuel] bounds the nesting depth; [None] only
    stands for its exhaustion. *)
Fixpoint parse_part (fuel : nat) (input : octets) : option Part :=
  match fuel with
  | O => None
  | S fuel' =>
      let (h, b) := split_header_body input in
      let hdr := parse_header h in
      let mt := effective_media_type hdr in
      if is_multipart_type mt then
        match boundary_of mt with
        | Some B =>
            let '(pre, kids, epi) := split_multipart B b in
            match all_some (map (parse_part fuel') kids) with
            | Some ps => Some (mkPart hdr (Multipart pre ps epi))
            | None => None
            end
        | None => Some (mkPart hdr (leaf_of hdr b))
        end
      else if is_message_rfc822 mt then
        match parse_part fuel' b with
        | Some m => Some (mkPart hdr (Encapsulated m))
        | None => None
        end
      else Some (mkPart hdr (leaf_of hdr b))
  end.

(** [message::parse(data)]: a part nests at most as deep as it has octets. *)
Definition parse (input : octets) : option Part :=
  parse_part (S (String.length input)) input.

End Parser.

(** ** Reachable parts *)

(** [subpart q p]: [q] is [p], one of its children, an encapsulated
    message, or a part reachable from those. *)
Inductive subpart : Part -> Part -> Prop :=
| subpart_refl (p : Part) : subpart p p
| subpart_child (q c : Part) (h : Header) (b : Body) :
    In c (body_children b) -> subpart q c -> subpart q (mkPart h b).

(** ** Building messages (specification, section 4.7; documentation
       chapter, "Building messages") *)

(** An embedded object of an HTML text part.  [obj_id] is the identifier
    [addObject] generated for it: its Content-ID without the angle
    brackets. *)
Record embeddedObject : Type := mkEmbeddedObject {
  obj_data : ContentHandler;
  obj_type : MediaType;
  obj_id : string
}.

Record plainTextPart : Type := mkPlainTextPart {
  plain_charset : string;
  plain_text : ContentHandler
}.

Record htmlTextPart : Type := mkHtmlTextPart {
  html_charset : string;
  html_text : ContentHandler;
  html_plainText : option ContentHandler;
  html_objects : list embeddedObject
}.

Inductive textPart : Type :=
| TPlain (p : plainTextPart)
| THtml (h : htmlTextPart).

Record attachment : Type := mkAttachment {
  att_data : ContentHandler;
  att_type : MediaType;
  att_description : list Word;
  att_filename : option string
}.

(** Modelled from the spec: "State held by a builder: expeditor (one
    Mailbox), recipients (AddressList), copy-recipients (AddressList),
    blind-copy-recipients (AddressList), subject (Text), text-part (a
    PlainTextPart or HtmlTextPart with optional embedded objects),
    attachments (ordered list)." *)
Record messageBuilder : Type := mkMessageBuilder {
  mb_expeditor : Mailbox;
  mb_recipients : list Address;
  mb_copyRecipients : list Address;
  mb_blindCopyRecipients : list Address;
  mb_subject : list Word;
  mb_textPart : textPart;
  mb_attachments : list attachment
}.

Definition empty_contents : ContentHandler := mkContentHandler EmptyString "7bit".

(** [vmime::messageBuilder mb;] *)
Definition messageBuilder_new : messageBuilder :=
  mkMessageBuilder (mkMailbox EmptyString EmptyString) [] [] [] []
    (TPlain (mkPlainTextPart "us-ascii" empty_contents)) [].

(** The calls of the documentation's listings, as functions on the builder. *)
Definition setSubject (t : list Word) (mb : messageBuilder) : messageBuilder :=
  mkMessageBuilder (mb_expeditor mb) (mb_recipients mb) (mb_copyRecipients mb)
    (mb_blindCopyRecipients mb) t (mb_textPart mb) (mb_attachments mb).

Definition setExpeditor (m : Mailbox) (mb : messageBuilder) : messageBuilder :=
  mkMessageBuilder m (mb_recipients mb) (mb_copyRecipients mb)
    (mb_blindCopyRecipients mb) (mb_subject mb) (mb_textPart mb) (mb_attachments mb).

Definition appendRecipient (a : Address) (mb : messageBuilder) : messageBuilder :=
  mkMessageBuilder (mb_expeditor mb) (mb_recipients mb ++ [a])%list (mb_copyRecipients mb)
    (mb_blindCopyRecipients mb) (mb_subject mb) (mb_textPart mb) (mb_attachments mb).

Definition setTextPart (t : textPart) (mb : messageBuilder) : messageBuilder :=
  mkMessageBuilder (mb_expeditor mb) (mb_recipients mb) (mb_copyRecipients mb)
    (mb_blindCopyRecipients mb) (mb_subject mb) t (mb_attachments mb).

Definition appendAttachment (a : attachment) (mb : messageBuilder) : messageBuilder :=
  mkMessageBuilder (mb_expeditor mb) (mb_recipients mb) (mb_copyRecipients mb)
    (mb_blindCopyRecipients mb) (mb_subject mb) (mb_textPart mb)
    (mb_attachments mb ++ [a])%list.

(** [mb.constructTextPart(type)]: an HTML text part for [text/html], a
    plain one otherwise. *)
Definition constructTextPart (type : MediaType) (mb : messageBuilder)
  : messageBuilder :=
  if ieq (mt_type type) "text" && ieq (mt_subtype type) "html"
  then setTextPart (THtml (mkHtmlTextPart "us-ascii" empty_contents None [])) mb
  else setTextPart (TPlain (mkPlainTextPart "us-ascii" empty_contents)) mb.

(** The identifier by which HTML text refers to an embedded object:
    a [cid:] URI. *)
Definition reference_id (o : embeddedObject) : string := "cid:" ++ obj_id o.

(** [textPart->addObject(data, type)]: appends the object under a freshly
    generated identifier [fresh] and returns "the identifier ... used to
    identify the embedded object in the HTML text". *)
Definition addObject (fresh : string) (data : ContentHandler) (type : MediaType)
  (h : htmlTextPart) : string * htmlTextPart :=
  let o := mkEmbeddedObject data type fresh in
  (reference_id o,
   mkHtmlTextPart (html_charset h) (html_text h) (html_plainText h)
                  (html_objects h ++ [o])%list).

Definition html_setCharset (cs : string) (h : htmlTextPart) : htmlTextPart :=
  mkHtmlTextPart cs (html_text h) (html_plainText h) (html_objects h).

Definition html_setText (t : ContentHandler) (h : htmlTextPart) : htmlTextPart :=
  mkHtmlTextPart (html_charset h) t (html_plainText h) (html_objects h).

Definition html_setPlainText (t : ContentHandler) (h : htmlTextPart) : htmlTextPart :=
  mkHtmlTextPart (html_charset h) (html_text h) (Some t) (html_objects h).

(** The external collaborators of section 6 that [construct] consumes:
    the clock, and randomness for the Message-ID and the boundaries. *)
Record Env : Type := mkEnv {
  env_now : DateTime;
  env_message_id : string;
  env_random_token : nat -> string
}.

(** Modelled from the spec: a boundary drawn from the randomness
    collaborator; the fixed lead keeps it non-empty, as section 3
    requires of the boundary a multipart carries. *)
Definition generateRandomBoundaryString (e : Env) (k : nat) : string :=
  "=_" ++ env_random_token e k.

Definition content_type_field (m : MediaType) : Field :=
  mkField "Content-Type" (VMediaType m).

Definition text_leaf (subtype charset : string) (text : ContentHandler) : Part :=
  mkPart [content_type_field (mkMediaType "text" subtype [("charset", charset)])]
         (Leaf text).

Definition object_part (o : embeddedObject) : Part :=
  mkPart [content_type_field (obj_type o);
          mkField "Content-ID" (VMessageId (obj_id o))]
         (Leaf (obj_data o)).

Definition disposition_params (a : attachment) : list (string * string) :=
  match att_filename a with
  | Some n => [("filename", n)]
  | None => []
  end.

Definition attachment_part (a : attachment) : Part :=
  mkPart [content_type_field (att_type a);
          mkField "Content-Description" (VText (att_description a));
          mkField "Content-Disposition"
                  (VContentDisposition "attachment" (disposition_params a))]
         (Leaf (att_data a)).

Definition multipart_of (subtype boundary : string) (children : list Part) : Part :=
  mkPart [content_type_field
            (mkMediaType "multipart" subtype [("boundary", boundary)])]
         (Multipart EmptyString children EmptyString).

(** Rows 1 to 4 of the decision table: A = the HTML text has a plain
    alternative, R = it has embedded objects. *)
Definition text_tree (e : Env) (t : textPart) : Part :=
  match t with
  | TPlain p => text_leaf "plain" (plain_charset p) (plain_text p)
  | THtml h =>
      let html := text_leaf "html" (html_charset h) (html_text h) in
      let primary :=
        match html_objects h with
        | [] => html
        | _ :: _ =>
            multipart_of "related" (generateRandomBoundaryString e 2)
                         (html :: map object_part (html_objects h))
        end in
      match html_plainText h with
      | None => primary
      | Some pl =>
          multipart_of "alternative" (generateRandomBoundaryString e 1)
                       [text_leaf "plain" (html_charset h) pl; primary]
      end
  end.

(** P = the builder has a non-text attachment. *)
Definition has_non_text_attachment (mb : messageBuilder) : bool :=
  existsb (fun a => negb (ieq (mt_type (att_type a)) "text")) (mb_attachments mb).

(** Row 5: [multipart/mixed { (tree above), attachments... }] when P. *)
Definition content_tree (e : Env) (mb : messageBuilder) : Part :=
  let t := text_tree e (mb_textPart mb) in
  if has_non_text_attachment mb
  then multipart_of "mixed" (generateRandomBoundaryString e 0)
                    (t :: map attachment_part (mb_attachments mb))
  else t.

(** "Header fields Date (= now), From, To, Cc, Bcc, Subject,
    MIME-Version: 1.0, and a generated Message-ID are set on the
    outermost part." *)
Definition envelope_fields (e : Env) (mb : messageBuilder) : Header :=
  [ mkField "Date" (VDateTime (env_now e));
    mkField "From" (VMailbox (mb_expeditor mb));
    mkField "To" (VAddressList (mb_recipients mb));
    mkField "Cc" (VAddressList (mb_copyRecipients mb));
    mkField "Bcc" (VAddressList (mb_blindCopyRecipients mb));
    mkField "Subject" (VText (mb_subject mb));
    mkField "MIME-Version" (VRaw "1.0");
    mkField "Message-ID" (VMessageId (env_message_id e)) ].

(** Modelled from the spec: the message of the decision table of section
    4.7, the envelope fields set on its outermost part. *)
Definition construct_tree (e : Env) (mb : messageBuilder) : Part :=
  match content_tree e mb with
  | mkPart h b => mkPart (envelope_fields e mb ++ h)%list b
  end.

(** *** References from HTML text to embedded objects *)

(** An octet that ends a URI written in HTML text: whitespace, a line
    terminator, a quote, an angle bracket or a closing parenthesis. *)
Definition is_reference_end (c : ascii) : bool :=
  is_wsp c || Ascii.eqb c CR || Ascii.eqb c LF || Ascii.eqb c DQUOTE
  || Ascii.eqb c "'" || Ascii.eqb c "<" || Ascii.eqb c ">" || Ascii.eqb c ")".

(** The octets up to the end of the URI. *)
Fixpoint take_reference (s : string) : string :=
  match s with
  | EmptyString => EmptyString
  | String c r => if is_reference_end c then EmptyString
                  else String c (take_reference r)
  end.

(** What follows [cid:] when [s] starts with it. *)
Definition after_cid (s : string) : option string :=
  match s with
  | String c1 (String c2 (String c3 (String c4 r))) =>
      if Ascii.eqb c1 "c" && Ascii.eqb c2 "i" && Ascii.eqb c3 "d"
         && Ascii.eqb c4 ":"
      then Some r else None
  | _ => None
  end.

(** The identifiers an HTML text refers to: for every [cid:] in it, the
    octets from there to the end of the URI, when there are any. *)
Fixpoint cid_references (s : string) : list string :=
  match s with
  | EmptyString => []
  | String c r =>
      match after_cid s with
      | Some rest =>
          match take_reference rest with
          | EmptyString => cid_references r
          | id => id :: cid_references r
          end
      | None => cid_references r
      end
  end.



(** Every object the HTML text refers to is attached to the text part. *)
Definition referenced_objects_attached (h : htmlTextPart) : bool :=
  forallb (fun id => existsb (fun o => String.eqb (obj_id o) id) (html_objects h))
          (cid_references (ch_data (html_text h))).

(** Modelled from the spec: the construction precondition section 7
    names, "HTML object referenced but not attached". *)
Definition builder_preconditions (mb : messageBuilder) : bool :=
  match mb_textPart mb with
  | THtml h => referenced_objects_attached h
  | TPlain _ => true
  end.

Inductive BuildError : Type := BuilderInvariant.

Inductive BuildResult : Type :=
| Built (message : Part)
| Refused (error : BuildError).

(** Modelled from the spec: [messageBuilder::construct()].  "Building is
    strict": inputs that violate the construction precondition are
    refused with BuilderInvariant; otherwise the message is the one of the
    decision table. *)
Definition construct (e : Env) (mb : messageBuilder) : BuildResult :=
  if builder_preconditions mb then Built (construct_tree e mb)
  else Refused BuilderInvariant.

(** ** Mutation of a part (documentation chapter, "A simple message") *)

(** [vmime::make_shared <vmime::message>()]: "Parts are constructed empty
    (headerless, empty leaf body)." *)
Definition message_new : Part := mkPart [] (Leaf empty_contents).

(** [hdr->appendField(field)]. *)
Definition appendField (f : Field) (p : Part) : Part :=
  match p with mkPart h b => mkPart (h ++ [f])%list b end.

(** [bdy->setContents(contents)]. *)
Definition setContents (c : ContentHandler) (p : Part) : Part :=
  match p with mkPart h _ => mkPart h (Leaf c) end.

(** ** The multipart invariant *)

Section Invariant.

Variable tp : octets -> option MediaType.

(** The media type carries a non-empty [boundary] parameter. *)
Definition has_boundary (m : MediaType) : Prop :=
  exists B, get_param "boundary" (mt_params m) = Some B /\ B <> EmptyString.

(** The invariant as section 3 states it: the effective top-level type is
    [multipart] exactly when the body is multipart-shaped, and then the
    media type carries a non-empty boundary. *)
Definition multipart_invariant (p : Part) : Prop :=
  let mt := effective_media_type tp (part_header p) in
  (is_multipart_type mt = true <-> is_multipart (part_body p) = true) /\
  (is_multipart_type mt = true -> has_boundary mt).

(** What parsing establishes: a multipart-shaped body exactly when the
    type is [multipart] and the boundary is there. *)
Definition multipart_iff_boundary (p : Part) : Prop :=
  let mt := effective_media_type tp (part_header p) in
  is_multipart (part_body p) = true <->
  (is_multipart_type mt = true /\ has_boundary mt).

End Invariant.

(** [P] holds of every part reachable from [p]. *)
Definition every_subpart (P : Part -> Prop) (p : Part) : Prop :=
  forall q, subpart q p -> P q.

(** The media types the caller declares for embedded objects and
    attachments are not [multipart]: their contents are leaves. *)
Definition leaf_types_declared (mb : messageBuilder) : bool :=
  forallb (fun a => negb (is_multipart_type (att_type a))) (mb_attachments mb)
  && match mb_textPart mb with
     | THtml h =>
         forallb (fun o => negb (is_multipart_type (obj_type o))) (html_objects h)
     | TPlain _ => true
     end.

(** ** Shapes, Content-IDs and references *)


Section Shapes.

Variable tp : octets -> option MediaType.


End Shapes.


(** The [i]-th child of a part. *)
Definition child (i : nat) (p : Part) : option Part :=
  nth_error (body_children (part_body p)) i.








(** ** The documentation's HTML message *)

Definition Q : string := String DQUOTE EmptyString.

Definition jpeg : MediaType := mkMediaType "image" "jpeg" [].

Definition html_listing (fresh : string) (text_of : string -> string) : messageBuilder :=
  let mb := setSubject [("us-ascii", "An HTML message")] messageBuilder_new in
  let mb := setExpeditor (mkMailbox EmptyString "me@vmime.org") mb in
  let mb := appendRecipient (AMailbox (mkMailbox EmptyString "you@vmime.org")) mb in
  let mb := constructTextPart (mkMediaType "text" "html" []) mb in
  match mb_textPart mb with
  | THtml textPart =>
      let (id, textPart) :=
        addObject fresh (mkContentHandler "<...image data...>" "base64") jpeg textPart in
      let textPart := html_setCharset "iso-8859-15" textPart in
      let textPart := html_setText (mkContentHandler (text_of id) "7bit") textPart in
      let textPart :=
        html_setPlainText (mkContentHandler "This is the plain text." "7bit") textPart in
      setTextPart (THtml textPart) mb
  | TPlain _ => mb
  end.

(** The listing "Building an HTML message with an embedded image". *)
Definition html_message_builder : messageBuilder :=
  html_listing "image1@vmime"
    (fun id => "This is the <b>HTML text</b>, and the image:<br/><img src="
               ++ Q ++ id ++ Q ++ "/>").








Definition example_env : Env :=
  mkEnv (mkDateTime 2005 10 13 15 22 46 120 false) "msg1@vmime"
        (fun k => match k with 0 => "mixed" | 1 => "alternative" | _ => "related" end).

(** Scenario 6: [multipart/mixed] and no boundary parameter. *)
Definition boundary_missing_message : octets :=
  "Content-Type: multipart/mixed" ++ CRLF ++
  "Subject: no boundary" ++ CRLF ++ CRLF ++
  "preamble" ++ CRLF ++ "--XX" ++ CRLF ++ CRLF ++ "part" ++ CRLF ++ "--XX--" ++ CRLF.

(** A well-formed two-part message. *)
Definition two_part_message : octets :=
  "Content-Type: multipart/mixed; boundary=XX" ++ CRLF ++ CRLF ++
  "preamble" ++ CRLF ++
  "--XX" ++ CRLF ++ "Content-Type: text/html" ++ CRLF ++ CRLF ++ "<b>hi</b>" ++ CRLF ++
  "--XX" ++ CRLF ++ CRLF ++ "second" ++ CRLF ++
  "--XX--" ++ CRLF ++ "epilogue".

End Mime.

(* ================================================================== *)
(** * Part III: theorems                                                 *)
(* ================================================================== *)

Module NetFacts.

Import Net.
Local Open Scope method_scope.

Lemma getUsername_const (this : simpleAuthenticator) :
  object_after getUsername this = this.
Proof. reflexivity. Qed.

Lemma getPassword_const (this : simpleAuthenticator) :
  object_after getPassword this = this.
Proof. reflexivity. Qed.

Lemma setUsername_fields (u : string) (this : simpleAuthenticator) :
  object_after (setUsername u) this = simpleAuthenticator_new2 u (m_password this).
Proof. reflexivity. Qed.

Lemma setPassword_fields (p : string) (this : simpleAuthenticator) :
  object_after (setPassword p) this = simpleAuthenticator_new2 (m_username this) p.
Proof. reflexivity. Qed.

(** C8: after [setUsername(u)], [getUsername()] returns [u] and
    [getPassword()] returns what it returned before; symmetrically,
    after [setPassword(p)], [getPassword()] returns [p] and
    [getUsername()] is unchanged. *)
Theorem set_get_frame (this : simpleAuthenticator) (u p : string) :
  (result_of (setUsername u ;; getUsername) this = u /\
   result_of (setUsername u ;; getPassword) this = result_of getPassword this)
  /\
  (result_of (setPassword p ;; getPassword) this = p /\
   result_of (setPassword p ;; getUsername) this = result_of getUsername this).
Proof.
  destruct this as [u0 p0].
  repeat split.
Qed.

(** C9: [requestAuthInfos()] returns [authenticationInfos] built from the
    current username and the current password, leaves the object as it
    was, and called twice in a row returns the same value twice. *)
Theorem requestAuthInfos_pure
  (authenticationInfos : Type)
  (authenticationInfos_new : string -> string -> authenticationInfos)
  (this : simpleAuthenticator) :
  let request := requestAuthInfos authenticationInfos authenticationInfos_new in
  result_of request this
    = authenticationInfos_new (result_of getUsername this)
                              (result_of getPassword this)
  /\ object_after request this = this
  /\ result_of (a <- request ;; b <- request ;; ret (a, b)) this
     = (result_of request this, result_of request this).
Proof.
  cbv zeta. destruct this as [u0 p0].
  repeat split.
Qed.

(** C10: an authenticator constructed from [u] and [p] answers [u] to
    [getUsername()] and [p] to [getPassword()]; a default-constructed one
    has the empty username and the empty password. *)
Theorem constructors_init (u p : string) :
  (result_of getUsername (simpleAuthenticator_new2 u p) = u /\
   result_of getPassword (simpleAuthenticator_new2 u p) = p)
  /\
  (result_of getUsername simpleAuthenticator_new = EmptyString /\
   result_of getPassword simpleAuthenticator_new = EmptyString).
Proof.
  repeat split.
Qed.

End NetFacts.

Module MimeFacts.

Import Mime.

(** ** Lengths: what the parser recurses on is shorter than its input *)

Lemma length_app (a b : string) :
  String.length (a ++ b) = String.length a + String.length b.
Proof.
  induction a as [|c a IH]; simpl; [reflexivity | now rewrite IH].
Qed.

Lemma split_header_body_from_length (s : octets) :
  forall (ls : bool) (h b : octets),
    split_header_body_from ls s = (h, b) ->
    String.length b <= Nat.pred (String.length s).
Proof.
  induction s as [|c r IH]; intros ls h b E; simpl in E.
  - inversion E; subst; simpl; lia.
  - destruct (ls && Ascii.eqb c LF).
    { inversion E; subst; simpl; lia. }
    destruct (ls && Ascii.eqb c CR).
    + destruct r as [|c2 r2].
      * inversion E; subst; simpl; lia.
      * destruct (Ascii.eqb c2 LF).
        { inversion E; subst; simpl; lia. }
        destruct (split_header_body_from false (String c2 r2)) as [h' b'] eqn:R.
        apply IH in R. inversion E; subst. simpl in *. lia.
    + destruct (split_header_body_from (Ascii.eqb c LF) r) as [h' b'] eqn:R.
      apply IH in R. inversion E; subst. simpl. lia.
Qed.

(** The header octets, the terminator of the first empty line and the
    body octets make up the input. *)
Lemma split_header_body_from_app (s : octets) :
  forall (ls : bool) (h b : octets),
    split_header_body_from ls s = (h, b) ->
    exists sep : octets,
      In sep [EmptyString; String LF EmptyString; CRLF] /\ s = h ++ sep ++ b.
Proof.
  induction s as [|c r IH]; intros ls h b E; simpl in E.
  - inversion E; subst. exists EmptyString. simpl; auto.
  - destruct (ls && Ascii.eqb c LF) eqn:E1.
    { inversion E; subst. exists (String LF EmptyString).
      apply andb_prop in E1 as [_ E1]. apply Ascii.eqb_eq in E1. subst c.
      simpl; auto. }
    destruct (ls && Ascii.eqb c CR) eqn:E2.
    + apply andb_prop in E2 as [_ E2]. apply Ascii.eqb_eq in E2. subst c.
      destruct r as [|c2 r2].
      * inversion E; subst. exists EmptyString. simpl; auto.
      * destruct (Ascii.eqb c2 LF) eqn:E3.
        { apply Ascii.eqb_eq in E3. subst c2. inversion E; subst.
          exists CRLF. simpl; auto. }
        destruct (split_header_body_from false (String c2 r2)) as [h' b'] eqn:R.
        apply IH in R as (sep & Hin & Heq). inversion E; subst.
        exists sep. split; [exact Hin|]. simpl. now rewrite Heq.
    + destruct (split_header_body_from (Ascii.eqb c LF) r) as [h' b'] eqn:R.
      apply IH in R as (sep & Hin & Heq). inversion E; subst.
      exists sep. split; [exact Hin|]. simpl. reflexivity.
Qed.

Lemma has_empty_line_from_String (ls : bool) (c : ascii) (r : octets) :
  has_empty_line_from ls (String c r) =
  if ls && Ascii.eqb c LF then true
  else if ls && Ascii.eqb c CR
          && match r with
             | String c2 _ => Ascii.eqb c2 LF
             | EmptyString => false
             end
  then true
  else has_empty_line_from (Ascii.eqb c LF) r.
Proof. reflexivity. Qed.

(** The split is at the first empty line: the header octets hold none. *)
Lemma split_header_body_from_first (s : octets) :
  forall (ls : bool) (h b : octets),
    split_header_body_from ls s = (h, b) ->
    has_empty_line_from ls h = false.
Proof.
  induction s as [|c r IH]; intros ls h b E; simpl in E.
  - inversion E; subst. reflexivity.
  - destruct (ls && Ascii.eqb c LF) eqn:E1.
    { inversion E; subst. reflexivity. }
    destruct (ls && Ascii.eqb c CR) eqn:E2.
    + destruct r as [|c2 r2].
      * inversion E; subst.
        rewrite has_empty_line_from_String, E1, E2. reflexivity.
      * destruct (Ascii.eqb c2 LF) eqn:E3.
        { inversion E; subst. reflexivity. }
        destruct (split_header_body_from false (String c2 r2)) as [h' b'] eqn:R.
        pose proof (IH _ _ _ R) as F.
        assert (exists h'', h' = String c2 h'') as [h'' ->].
        { simpl in R.
          destruct (split_header_body_from (Ascii.eqb c2 LF) r2) as [x y].
          inversion R; subst. eauto. }
        inversion E; subst.
        rewrite has_empty_line_from_String, E1, E2, E3.
        apply andb_prop in E2 as [_ E2]. apply Ascii.eqb_eq in E2. subst c.
        exact F.
    + destruct (split_header_body_from (Ascii.eqb c LF) r) as [h' b'] eqn:R.
      pose proof (IH _ _ _ R) as F.
      inversion E; subst.
      rewrite has_empty_line_from_String, E1, E2. exact F.
Qed.

Lemma raw_lines_concat (s : octets) : concat_octets (raw_lines s) = s.
Proof.
  induction s as [|c r IH]; simpl; [reflexivity|].
  destruct (Ascii.eqb c LF).
  - simpl. now rewrite IH.
  - destruct (raw_lines r) as [|l ls]; simpl in *; now rewrite <- IH.
Qed.

Lemma classify_nonempty (B : string) (l : octets) :
  classify B l <> Ordinary -> 1 <= String.length l.
Proof.
  destruct l as [|c r]; [|simpl; lia].
  unfold classify. simpl. congruence.
Qed.

Lemma split_children_length (B : string) (ls : list octets) :
  forall (cur : octets) (cs : list octets) (e : octets),
    split_children B cur ls = (cs, e) ->
    forall c, In c cs ->
      String.length c <= String.length cur + String.length (concat_octets ls).
Proof.
  induction ls as [|l r IH]; intros cur cs e E c Hc; simpl in E.
  - inversion E; subst. destruct Hc as [<-|[]]. lia.
  - simpl. rewrite length_app.
    destruct (classify B l).
    + destruct (split_children B EmptyString r) as [cs' e'] eqn:R.
      inversion E; subst. destruct Hc as [<-|Hc]; [lia|].
      specialize (IH _ _ _ R _ Hc). simpl in IH. lia.
    + inversion E; subst. destruct Hc as [<-|[]]. lia.
    + specialize (IH _ _ _ E _ Hc). rewrite length_app in IH. lia.
Qed.

Lemma split_multipart_lines_length (B : string) (ls : list octets) :
  forall (p : octets) (cs : list octets) (e : octets),
    split_multipart_lines B ls = (p, cs, e) ->
    forall c, In c cs -> String.length c < String.length (concat_octets ls).
Proof.
  induction ls as [|l r IH]; intros p cs e E c Hc; simpl in E.
  - inversion E; subst. destruct Hc.
  - simpl. rewrite length_app.
    destruct (classify B l) eqn:K.
    + destruct (split_children B EmptyString r) as [cs' e'] eqn:R.
      inversion E; subst.
      pose proof (split_children_length _ _ _ _ _ R _ Hc) as L.
      assert (1 <= String.length l) by (apply (classify_nonempty B); congruence).
      simpl in L. lia.
    + inversion E; subst. destruct Hc.
    + destruct (split_multipart_lines B r) as [[p' cs'] e'] eqn:R.
      inversion E; subst. specialize (IH _ _ _ eq_refl _ Hc). lia.
Qed.

Lemma split_multipart_length (B : string) (body p e : octets) (cs : list octets) :
  split_multipart B body = (p, cs, e) ->
  forall c, In c cs -> String.length c < String.length body.
Proof.
  unfold split_multipart. intros E c Hc.
  pose proof (split_multipart_lines_length _ _ _ _ _ E _ Hc) as L.
  now rewrite raw_lines_concat in L.
Qed.

Lemma all_some_total {A B : Type} (f : A -> option B) (l : list A) :
  (forall a, In a l -> exists b, f a = Some b) ->
  exists bs, all_some (map f l) = Some bs.
Proof.
  induction l as [|a l IH]; intros H; simpl.
  - now exists [].
  - destruct (H a (or_introl eq_refl)) as [b ->].
    destruct IH as [bs ->]; [intros; apply H; now right|].
    now exists (b :: bs).
Qed.

Lemma all_some_In {A B : Type} (f : A -> option B) (l : list A) :
  forall bs, all_some (map f l) = Some bs ->
  forall b, In b bs -> exists a, In a l /\ f a = Some b.
Proof.
  induction l as [|a l IH]; intros bs E b Hb; simpl in E.
  - inversion E; subst. destruct Hb.
  - destruct (f a) as [b0|] eqn:Fa; [|discriminate].
    destruct (all_some (map f l)) as [bs'|] eqn:R; [|discriminate].
    inversion E; subst. destruct Hb as [<-|Hb].
    + exists a. split; [now left | exact Fa].
    + destruct (IH _ eq_refl _ Hb) as (a' & Ha' & Fa').
      exists a'. split; [now right | exact Fa'].
Qed.

(** ** The parser returns a part for every input *)

Section ParserFacts.

Variable tp : octets -> option MediaType.

Lemma parse_part_S (fuel : nat) (input : octets) :
  parse_part tp (S fuel) input =
  let (h, b) := split_header_body input in
  let hdr := parse_header h in
  let mt := effective_media_type tp hdr in
  if is_multipart_type mt then
    match boundary_of mt with
    | Some B =>
        let '(pre, kids, epi) := split_multipart B b in
        match all_some (map (parse_part tp fuel) kids) with
        | Some ps => Some (mkPart hdr (Multipart pre ps epi))
        | None => None
        end
    | None => Some (mkPart hdr (leaf_of hdr b))
    end
  else if is_message_rfc822 mt then
    match parse_part tp fuel b with
    | Some m => Some (mkPart hdr (Encapsulated m))
    | None => None
    end
  else Some (mkPart hdr (leaf_of hdr b)).
Proof. reflexivity. Qed.

Lemma parse_part_total (fuel : nat) :
  forall input : octets,
    String.length input < fuel -> exists m, parse_part tp fuel input = Some m.
Proof.
  induction fuel as [|fuel IH]; intros input L; [lia|].
  rewrite parse_part_S.
  destruct (split_header_body input) as [h b] eqn:S.
  pose proof (split_header_body_from_length _ _ _ _ S) as Lb.
  cbv zeta.
  destruct (is_multipart_type (effective_media_type tp (parse_header h))).
  - destruct (boundary_of (effective_media_type tp (parse_header h))) as [B|];
      [|eauto].
    destruct (split_multipart B b) as [[pre kids] epi] eqn:K.
    destruct (all_some_total (parse_part tp fuel) kids) as [ps ->]; [|eauto].
    intros c Hc. apply IH.
    pose proof (split_multipart_length _ _ _ _ _ K _ Hc). lia.
  - destruct (is_message_rfc822 (effective_media_type tp (parse_header h))) eqn:R;
      [|eauto].
    destruct (IH b) as [m ->]; [|eauto].
    destruct input as [|c r].
    + inversion S; subst. discriminate R.
    + simpl in *. lia.
Qed.

End ParserFacts.

(** ** The multipart invariant on parsed messages *)

Section InvariantFacts.

Variable tp : octets -> option MediaType.

Lemma multipart_invariant_weaken (p : Part) :
  multipart_invariant tp p -> multipart_iff_boundary tp p.
Proof.
  unfold multipart_invariant, multipart_iff_boundary. cbv zeta.
  intros [[H1 H2] H3]. split.
  - intros M. split; auto.
  - intros [T _]. auto.
Qed.

Lemma boundary_of_Some (m : MediaType) (B : string) :
  boundary_of m = Some B -> has_boundary m.
Proof.
  unfold boundary_of, has_boundary.
  destruct (get_param "boundary" (mt_params m)) as [[|c r]|]; try discriminate.
  intros _. exists (String c r). split; [reflexivity | discriminate].
Qed.

Lemma boundary_of_None (m : MediaType) :
  boundary_of m = None -> ~ has_boundary m.
Proof.
  unfold boundary_of, has_boundary. intros E (B & G & NE).
  rewrite G in E. destruct B; [now apply NE | discriminate].
Qed.

Lemma subpart_inv (q : Part) (h : Header) (b : Body) :
  subpart q (mkPart h b) ->
  q = mkPart h b \/ exists c, In c (body_children b) /\ subpart q c.
Proof.
  intros H. inversion H; subst; [now left | right; eauto].
Qed.

Lemma subpart_leaf (q : Part) (h : Header) (c : ContentHandler) :
  subpart q (mkPart h (Leaf c)) -> q = mkPart h (Leaf c).
Proof.
  intros H. apply subpart_inv in H as [H | (x & [] & _)]. exact H.
Qed.

Lemma parse_part_multipart_iff_boundary (fuel : nat) :
  forall (input : octets) (m : Part),
    parse_part tp fuel input = Some m ->
    forall q, subpart q m -> multipart_iff_boundary tp q.
Proof.
  induction fuel as [|fuel IH]; intros input m E q Hq; [discriminate|].
  rewrite parse_part_S in E.
  destruct (split_header_body input) as [h b].
  cbv zeta in E.
  destruct (is_multipart_type (effective_media_type tp (parse_header h))) eqn:T.
  - destruct (boundary_of (effective_media_type tp (parse_header h))) as [B|] eqn:Bd.
    + destruct (split_multipart B b) as [[pre kids] epi].
      destruct (all_some (map (parse_part tp fuel) kids)) as [ps|] eqn:A;
        [|discriminate].
      inversion E; subst m; clear E.
      apply subpart_inv in Hq as [-> | (c & Hc & Hq)].
      * unfold multipart_iff_boundary; simpl. rewrite T.
        split; [intros _; split; [reflexivity | eapply boundary_of_Some; eauto]
               | reflexivity].
      * simpl in Hc.
        destruct (all_some_In _ _ _ A _ Hc) as (k & _ & Pk).
        eapply IH; eauto.
    + inversion E; subst m; clear E.
      apply subpart_leaf in Hq. subst q.
      unfold multipart_iff_boundary; simpl.
      split; [discriminate | intros [_ HB]; now apply boundary_of_None in Bd].
  - destruct (is_message_rfc822 (effective_media_type tp (parse_header h))).
    + destruct (parse_part tp fuel b) as [m'|] eqn:P; [|discriminate].
      inversion E; subst m; clear E.
      apply subpart_inv in Hq as [-> | (c & Hc & Hq)].
      * unfold multipart_iff_boundary; simpl. rewrite T.
        split; [discriminate | intros [F _]; discriminate].
      * simpl in Hc. destruct Hc as [<- | []]. eapply IH; eauto.
    + inversion E; subst m; clear E.
      apply subpart_leaf in Hq. subst q.
      unfold multipart_iff_boundary; simpl. rewrite T.
      split; [discriminate | intros [F _]; discriminate].
Qed.

End InvariantFacts.

(** ** The invariant on built messages *)

Section BuiltInvariant.

Variable tp : octets -> option MediaType.

Lemma every_subpart_leaf (P : Part -> Prop) (h : Header) (c : ContentHandler) :
  P (mkPart h (Leaf c)) -> every_subpart P (mkPart h (Leaf c)).
Proof.
  intros H q Hq. apply subpart_leaf in Hq. now subst.
Qed.

Lemma every_subpart_multipart (P : Part -> Prop) (h : Header)
  (pre epi : octets) (cs : list Part) :
  P (mkPart h (Multipart pre cs epi)) ->
  (forall c, In c cs -> every_subpart P c) ->
  every_subpart P (mkPart h (Multipart pre cs epi)).
Proof.
  intros H Hcs q Hq.
  apply subpart_inv in Hq as [-> | (c & Hc & Hq)]; [exact H|].
  exact (Hcs c Hc q Hq).
Qed.

Lemma generated_boundary_nonempty (e : Env) (k : nat) :
  generateRandomBoundaryString e k <> EmptyString.
Proof. discriminate. Qed.

Lemma invariant_text_leaf (st cs : string) (t : ContentHandler) :
  every_subpart (multipart_invariant tp) (text_leaf st cs t).
Proof.
  apply every_subpart_leaf. split; [split|]; discriminate.
Qed.

Lemma invariant_leaf_typed (m : MediaType) (rest : Header) (c : ContentHandler) :
  is_multipart_type m = false ->
  every_subpart (multipart_invariant tp)
                (mkPart (content_type_field m :: rest) (Leaf c)).
Proof.
  intros T. apply every_subpart_leaf.
  unfold multipart_invariant.
  change (effective_media_type tp
            (part_header (mkPart (content_type_field m :: rest) (Leaf c))))
    with m.
  cbv zeta. rewrite T. split; [split|]; discriminate.
Qed.

Lemma invariant_multipart_of (st B : string) (cs : list Part) :
  B <> EmptyString ->
  (forall c, In c cs -> every_subpart (multipart_invariant tp) c) ->
  every_subpart (multipart_invariant tp) (multipart_of st B cs).
Proof.
  intros NE Hcs. apply every_subpart_multipart; [|exact Hcs].
  split; [split; reflexivity|].
  intros _. exists B. split; [reflexivity | exact NE].
Qed.

Lemma invariant_text_tree (e : Env) (t : textPart) :
  match t with
  | THtml h =>
      forallb (fun o => negb (is_multipart_type (obj_type o))) (html_objects h)
  | TPlain _ => true
  end = true ->
  every_subpart (multipart_invariant tp) (text_tree e t).
Proof.
  destruct t as [p | h]; intros L; simpl.
  - apply invariant_text_leaf.
  - assert (Hprimary :
      every_subpart (multipart_invariant tp)
        match html_objects h with
        | [] => text_leaf "html" (html_charset h) (html_text h)
        | _ :: _ =>
            multipart_of "related" (generateRandomBoundaryString e 2)
              (text_leaf "html" (html_charset h) (html_text h)
               :: map object_part (html_objects h))
        end).
    { destruct (html_objects h) as [|o os] eqn:Os.
      - apply invariant_text_leaf.
      - apply invariant_multipart_of; [apply generated_boundary_nonempty|].
        intros c [<- | Hc]; [apply invariant_text_leaf|].
        apply in_map_iff in Hc as (o' & <- & Ho').
        apply invariant_leaf_typed.
        rewrite forallb_forall in L. specialize (L o' Ho').
        now apply negb_true_iff in L. }
    destruct (html_plainText h) as [pl|]; [|exact Hprimary].
    apply invariant_multipart_of; [apply generated_boundary_nonempty|].
    intros c [<- | [<- | []]]; [apply invariant_text_leaf | exact Hprimary].
Qed.

Lemma invariant_content_tree (e : Env) (mb : messageBuilder) :
  leaf_types_declared mb = true ->
  every_subpart (multipart_invariant tp) (content_tree e mb).
Proof.
  unfold leaf_types_declared, content_tree. intros L.
  apply andb_prop in L as [La Lt].
  pose proof (invariant_text_tree e _ Lt) as Ht.
  destruct (has_non_text_attachment mb); [|exact Ht].
  apply invariant_multipart_of; [apply generated_boundary_nonempty|].
  intros c [<- | Hc]; [exact Ht|].
  apply in_map_iff in Hc as (a & <- & Ha).
  apply invariant_leaf_typed.
  rewrite forallb_forall in La. specialize (La a Ha).
  now apply negb_true_iff in La.
Qed.

(** The envelope fields do not hide the Content-Type of the content tree. *)
Lemma effective_media_type_envelope (e : Env) (mb : messageBuilder) (h : Header) :
  effective_media_type tp (envelope_fields e mb ++ h)%list
  = effective_media_type tp h.
Proof. reflexivity. Qed.

Lemma invariant_construct_tree (e : Env) (mb : messageBuilder) :
  leaf_types_declared mb = true ->
  every_subpart (multipart_invariant tp) (construct_tree e mb).
Proof.
  intros L. pose proof (invariant_content_tree e mb L) as H.
  unfold construct_tree. destruct (content_tree e mb) as [h b].
  intros q Hq. apply subpart_inv in Hq as [-> | (c & Hc & Hq)].
  - specialize (H _ (subpart_refl _)).
    unfold multipart_invariant in *. cbn [part_header part_body] in *.
    rewrite effective_media_type_envelope. exact H.
  - apply H. eapply subpart_child; eauto.
Qed.

(** What [construct] builds is the message of the decision table. *)
Lemma construct_Built (e : Env) (mb : messageBuilder) (m : Part) :
  construct e mb = Built m -> m = construct_tree e mb.
Proof.
  unfold construct. destruct (builder_preconditions mb); congruence.
Qed.

Lemma invariant_construct (e : Env) (mb : messageBuilder) (m : Part) :
  leaf_types_declared mb = true ->
  construct e mb = Built m ->
  every_subpart (multipart_invariant tp) m.
Proof.
  intros L B. apply construct_Built in B. subst m.
  now apply invariant_construct_tree.
Qed.

End BuiltInvariant.

(** ** Parsing is permissive *)

(** C4: for every input the parser returns a message; and when the
    effective media type is [multipart] (so for [multipart/mixed]) and
    carries no [boundary] parameter, the message is the parsed header with
    one leaf body whose octets are all the octets after the first empty
    line of the input: the input is the header octets, which hold no
    empty line, the terminator of the empty line, and the leaf's octets. *)
Theorem parse_permissive (tp : octets -> option MediaType) (input : octets) :
  (exists m, parse tp input = Some m)
  /\
  (forall h b,
     split_header_body input = (h, b) ->
     is_multipart_type (effective_media_type tp (parse_header h)) = true ->
     get_param "boundary" (mt_params (effective_media_type tp (parse_header h)))
       = None ->
     parse tp input
       = Some (mkPart (parse_header h)
                      (Leaf (mkContentHandler b (declared_encoding (parse_header h)))))
     /\ has_empty_line h = false
     /\ exists sep,
          In sep [EmptyString; String LF EmptyString; CRLF]
          /\ input = h ++ sep ++ b).
Proof.
  split.
  - apply parse_part_total. lia.
  - intros h b S T G. split; [|split].
    + unfold parse. rewrite parse_part_S, S. cbv zeta. rewrite T.
      unfold boundary_of. rewrite G. reflexivity.
    + exact (split_header_body_from_first _ _ _ _ S).
    + exact (split_header_body_from_app _ _ _ _ S).
Qed.

Lemma parse_permissive_witness :
  (exists m, parse parse_media_type boundary_missing_message = Some m)
  /\
  parse parse_media_type boundary_missing_message
  = Some (mkPart
            [mkField "Content-Type" (VRaw "multipart/mixed");
             mkField "Subject" (VRaw "no boundary")]
            (Leaf (mkContentHandler
                     ("preamble" ++ CRLF ++ "--XX" ++ CRLF ++ CRLF ++ "part" ++ CRLF
                      ++ "--XX--" ++ CRLF)
                     "7bit"))).
Proof.
  destruct (parse_permissive parse_media_type boundary_missing_message) as [H1 H2].
  split; [exact H1|].
  refine (proj1 (H2 ("Content-Type: multipart/mixed" ++ CRLF ++
                     "Subject: no boundary" ++ CRLF)
                    ("preamble" ++ CRLF ++ "--XX" ++ CRLF ++ CRLF ++ "part" ++ CRLF
                     ++ "--XX--" ++ CRLF) _ _ _)); reflexivity.
Defined.

(** ** The multipart invariant, as far as it holds *)

(** The invariant of section 3 fails on a part the parser returns
    (scenario 6: [multipart/mixed] without a boundary is a leaf), on a part
    mutated through [appendField], and on a built message whose caller
    declares an attachment as [multipart]. *)
Lemma multipart_invariant_counterexample :
  (exists P,
     parse parse_media_type boundary_missing_message = Some P
     /\ mt_type (effective_media_type parse_media_type (part_header P)) = "multipart"
     /\ is_multipart (part_body P) = false)
  /\
  (exists P,
     appendField (content_type_field
                    (mkMediaType "multipart" "mixed" [("boundary", "XX")]))
                 message_new = P
     /\ mt_type (effective_media_type parse_media_type (part_header P)) = "multipart"
     /\ is_multipart (part_body P) = false)
  /\
  (exists m P,
     construct example_env
       (appendAttachment
          (mkAttachment empty_contents
                        (mkMediaType "multipart" "mixed" []) [] None)
          messageBuilder_new) = Built m
     /\ child 1 m = Some P
     /\ mt_type (effective_media_type parse_media_type (part_header P)) = "multipart"
     /\ is_multipart (part_body P) = false).
Proof.
  split; [|split].
  - eexists. repeat split; vm_compute; reflexivity.
  - eexists. repeat split; vm_compute; reflexivity.
  - do 2 eexists. repeat split; vm_compute; reflexivity.
Qed.

(** C2, amended: for every part reachable from a parsed message, the body
    is multipart-shaped exactly when the effective top-level type is
    [multipart] and the media type carries a non-empty boundary; for every
    part reachable from a message built from embedded objects and
    attachments not declared [multipart], the section 3 invariant holds as
    stated: of the message of the decision table whatever the HTML text
    refers to, and so of every message [construct] returns. *)
Theorem multipart_invariant_parsed_built (tp : octets -> option MediaType) :
  (forall input m q,
     parse tp input = Some m -> subpart q m -> multipart_iff_boundary tp q)
  /\
  (forall e mb q,
     leaf_types_declared mb = true ->
     subpart q (construct_tree e mb) -> multipart_invariant tp q)
  /\
  (forall e mb m q,
     leaf_types_declared mb = true ->
     construct e mb = Built m ->
     subpart q m -> multipart_invariant tp q).
Proof.
  split; [|split].
  - intros input m q E Hq.
    exact (parse_part_multipart_iff_boundary tp _ _ _ E _ Hq).
  - intros e mb q L Hq. exact (invariant_construct_tree tp e mb L q Hq).
  - intros e mb m q L B Hq. exact (invariant_construct tp e mb m L B q Hq).
Qed.

Lemma multipart_invariant_parsed_built_witness :
  (exists m,
     parse parse_media_type two_part_message = Some m
     /\ multipart_iff_boundary parse_media_type m)
  /\ multipart_invariant parse_media_type
       (construct_tree example_env html_message_builder)
  /\ (exists m,
        construct example_env html_message_builder = Built m
        /\ multipart_invariant parse_media_type m).
Proof.
  split; [|split].
  - eexists. split; [vm_compute; reflexivity|].
    eapply (proj1 (multipart_invariant_parsed_built parse_media_type)
                  two_part_message);
      [vm_compute; reflexivity | apply subpart_refl].
  - apply (proj1 (proj2 (multipart_invariant_parsed_built parse_media_type))
                 example_env html_message_builder);
      [reflexivity | apply subpart_refl].
  - eexists. split; [vm_compute; reflexivity|].
    eapply (proj2 (proj2 (multipart_invariant_parsed_built parse_media_type))
                  example_env html_message_builder);
      [reflexivity | vm_compute; reflexivity | apply subpart_refl].
Defined.

(** ** The builder's tree for HTML with a plain alternative and objects *)






(** *** Identifiers found in HTML text *)







(** *** The calls of the listing *)






End MimeFacts.

(* ================================================================== *)
(** * Part IV: how the authenticator's methods compose                   *)
(* ================================================================== *)

Module NetCallsFacts.

Import Net NetCalls.
Local Open Scope method_scope.

Section CallsFacts.

Variable authenticationInfos : Type.
Variable authenticationInfos_new : string -> string -> authenticationInfos.

Local Abbreviation perform_all :=
  (NetCalls.perform_all authenticationInfos authenticationInfos_new).
Local Abbreviation perform :=
  (NetCalls.perform authenticationInfos authenticationInfos_new).
Local Abbreviation request :=
  (requestAuthInfos authenticationInfos authenticationInfos_new).

Lemma object_after_bind {A B : Type} (m : Method A) (k : A -> Method B)
  (this : simpleAuthenticator) :
  object_after (bind m k) this
  = object_after (k (result_of m this)) (object_after m this).
Proof.
  unfold object_after, result_of, bind. destruct (m this); reflexivity.
Qed.

Lemma result_of_bind {A B : Type} (m : Method A) (k : A -> Method B)
  (this : simpleAuthenticator) :
  result_of (bind m k) this
  = result_of (k (result_of m this)) (object_after m this).
Proof.
  unfold object_after, result_of, bind. destruct (m this); reflexivity.
Qed.

Lemma perform_all_cons (c : call) (cs : list call) (this : simpleAuthenticator) :
  object_after (perform_all (c :: cs)) this
  = object_after (perform_all cs) (object_after (perform c) this).
Proof.
  cbn [NetCalls.perform_all]. now rewrite object_after_bind.
Qed.

Lemma perform_const (c : call) (this : simpleAuthenticator) :
  is_const c = true -> object_after (perform c) this = this.
Proof.
  destruct c; intros H; try discriminate H; reflexivity.
Qed.

Lemma perform_all_fields (cs : list call) :
  forall this : simpleAuthenticator,
    object_after (perform_all cs) this
    = simpleAuthenticator_new2 (last_username cs (m_username this))
                               (last_password cs (m_password this)).
Proof.
  induction cs as [|c cs IH]; intros [u0 p0].
  - reflexivity.
  - rewrite perform_all_cons, IH. destruct c; reflexivity.
Qed.

(** X1: after any sequence of calls on an authenticator, [getUsername()]
    returns the argument of the last [setUsername] of the sequence (the
    username before the sequence when it has none), [getPassword()] the
    argument of the last [setPassword] (likewise), and
    [requestAuthInfos()] the [authenticationInfos] of those two. *)
Theorem last_setter_wins (cs : list call) (this : simpleAuthenticator) :
  let username := last_username cs (result_of getUsername this) in
  let password := last_password cs (result_of getPassword this) in
  result_of (perform_all cs ;; getUsername) this = username
  /\ result_of (perform_all cs ;; getPassword) this = password
  /\ result_of (perform_all cs ;; request) this
     = authenticationInfos_new username password.
Proof.
  cbv zeta. rewrite !result_of_bind, perform_all_fields.
  repeat split.
Qed.

(** X2: the calls of [const] methods ([requestAuthInfos], [getUsername],
    [getPassword]) can be erased from any sequence of calls: the object
    after the sequence is the object after its setter calls alone. *)
Theorem const_calls_erasable (cs : list call) (this : simpleAuthenticator) :
  object_after (perform_all cs) this
  = object_after (perform_all (filter is_setter cs)) this.
Proof.
  revert this. induction cs as [|c cs IH]; intros this; [reflexivity|].
  cbn [filter]. destruct (is_setter c) eqn:K.
  - rewrite !perform_all_cons. apply IH.
  - rewrite perform_all_cons, perform_const, IH; [reflexivity|].
    unfold is_setter in K. now apply negb_false_iff in K.
Qed.

End CallsFacts.

(** X3: [setUsername] and [setPassword] commute, and of two calls of the
    same setter only the second counts. *)
Theorem setters_commute_overwrite (this : simpleAuthenticator)
  (u u' p p' : string) :
  object_after (setUsername u ;; setPassword p) this
  = object_after (setPassword p ;; setUsername u) this
  /\ object_after (setUsername u' ;; setUsername u) this
     = object_after (setUsername u) this
  /\ object_after (setPassword p' ;; setPassword p) this
     = object_after (setPassword p) this.
Proof.
  destruct this as [u0 p0]. repeat split.
Qed.

(** X4: giving a setter what its getter returns changes nothing:
    [setUsername(getUsername())] and [setPassword(getPassword())] leave
    the object as it was. *)
Theorem set_what_get_returns (this : simpleAuthenticator) :
  object_after (u <- getUsername ;; setUsername u) this = this
  /\ object_after (p <- getPassword ;; setPassword p) this = this.
Proof.
  destruct this as [u0 p0]. split; reflexivity.
Qed.

(** X6: calling both setters on any authenticator, in either order,
    gives the object the two-argument constructor builds from the same
    strings; so the default constructor followed by the two setters is
    the two-argument constructor, and every object is the one constructed
    from what its getters return. *)
Theorem constructor_as_setters (this : simpleAuthenticator) (u p : string) :
  object_after (setUsername u ;; setPassword p) this
  = simpleAuthenticator_new2 u p
  /\ object_after (setPassword p ;; setUsername u) this
     = simpleAuthenticator_new2 u p
  /\ object_after (setUsername u ;; setPassword p) simpleAuthenticator_new
     = simpleAuthenticator_new2 u p
  /\ simpleAuthenticator_new2 (result_of getUsername this)
                              (result_of getPassword this) = this.
Proof.
  destruct this as [u0 p0]. repeat split.
Qed.

End NetCallsFacts.
